(** * alternator/expressions_types.hh: the parsed representation of
      update expressions

    The header declares the parse-tree classes of namespace
    [alternator::parsed]: [path], [value], [set_rhs] and
    [update_expression] with its nested [action].  Every class is
    default-constructed and then filled by setters, so each C++ method
    that mutates [*this] is embedded as a function that takes the object
    last and returns the object after the call.  A method that can throw
    is a computation in the monad [M] below, which keeps the object as the
    exception leaves it. *)

From Stdlib Require Import List String Ascii Bool ZArith Lia.
Import ListNotations.

Local Open Scope string_scope.
Local Open Scope Z_scope.
Local Open Scope list_scope.

(** ** Exceptions and throwing methods *)

(** Modelled from the spec: [DuplicatePathError], the error that
    [update_expression::add] and [update_expression::append] signal for a
    path claimed twice; the header declares both methods and defines
    neither.  [bad_variant_access] is [std::bad_variant_access], which
    [std::get<T>] throws when the variant holds another alternative; it is
    the only exception the header itself can raise, both for an accessor
    called on the wrong alternative and for a builder call out of order. *)
Inductive exn : Type :=
| bad_variant_access
| DuplicatePathError.

Inductive result (A : Type) : Type :=
| Ok (a : A)
| Throw (e : exn).
Arguments Ok {A} a.
Arguments Throw {A} e.

(** A method of an object of type [S] returning [A]: it is given the
    object and yields the object after the call, together with the value
    returned or the exception thrown. *)
Definition M (S A : Type) : Type := S -> S * result A.

Definition ret {S A} (a : A) : M S A := fun s => (s, Ok a).
Definition throw {S A} (e : exn) : M S A := fun s => (s, Throw e).
Definition bind {S A B} (m : M S A) (k : A -> M S B) : M S B :=
  fun s =>
    match m s with
    | (s', Ok a) => k a s'
    | (s', Throw e) => (s', Throw e)
    end.
Definition modify {S} (f : S -> S) : M S unit := fun s => (f s, Ok tt).

Notation "m1 ;; m2" := (bind m1 (fun _ => m2))
  (at level 61, right associativity).

(** [for (auto& x : xs) body(x);] *)
Fixpoint for_each {S A} (body : A -> M S unit) (xs : list A) : M S unit :=
  match xs with
  | [] => ret tt
  | x :: xs' => body x ;; for_each body xs'
  end.

Definition state_after {S A} (r : S * result A) : S := fst r.
Definition outcome {S A} (r : S * result A) : result A := snd r.

(** ** Generic boolean equality on vectors *)

Fixpoint vector_eqb {A} (eqb : A -> A -> bool) (xs ys : list A) : bool :=
  match xs, ys with
  | [], [] => true
  | x :: xs', y :: ys' => eqb x y && vector_eqb eqb xs' ys'
  | _, _ => false
  end.

(** ** class path *)

Module path.

(** [unsigned]: a 32-bit machine integer, kept in [0, 2^32). *)
Definition unsigned_max : Z := 2 ^ 32.
Definition to_unsigned (i : Z) : Z := i mod unsigned_max.

(** [std::variant<std::string, unsigned>]: a dot or an index. *)
Inductive operator : Type :=
| dot (name : string)
| index (i : Z).

Record t : Type := mk {
  _root : string;
  _operators : list operator
}.

(** The implicit default constructor. *)
Definition default : t := {| _root := ""; _operators := [] |}.

Definition set_root (root : string) (this : t) : t :=
  {| _root := root; _operators := _operators this |}.

Definition add_index (i : Z) (this : t) : t :=
  {| _root := _root this;
     _operators := _operators this ++ [index (to_unsigned i)] |}.

Definition add_dot (name : string) (this : t) : t :=
  {| _root := _root this;
     _operators := _operators this ++ [dot name] |}.

Definition root (this : t) : string := _root this.

Definition has_operators (this : t) : bool :=
  negb (match _operators this with [] => true | _ :: _ => false end).

(** Modelled from the spec: the equality of two dereference steps, for
    the path comparison that class [path] does not declare.  Two steps are
    equal when they are of the same kind and carry the same value, an
    index compared as an integer and a field name as an exact string. *)
Definition operator_eqb (x y : operator) : bool :=
  match x, y with
  | dot n, dot m => String.eqb n m
  | index i, index j => Z.eqb i j
  | _, _ => false
  end.

(** Modelled from the spec: the structural equality of two paths that
    [update_expression::add] uses to detect a collision; class [path]
    declares no comparison.  Two paths are equal when their roots are
    equal and their step sequences are equal position by position. *)
Definition eqb (p q : t) : bool :=
  String.eqb (_root p) (_root q)
  && vector_eqb operator_eqb (_operators p) (_operators q).

(** The specification's wording of the same relation, as a proposition:
    same kind and same value. *)
Definition same_step (x y : operator) : Prop :=
  match x, y with
  | dot n, dot m => n = m
  | index i, index j => i = j
  | _, _ => False
  end.

(** Equal root, same number of steps, same step at each position. *)
Definition structurally_equal (p q : t) : Prop :=
  _root p = _root q
  /\ List.length (_operators p) = List.length (_operators q)
  /\ forall (k : nat) (x y : operator),
       nth_error (_operators p) k = Some x ->
       nth_error (_operators q) k = Some y ->
       same_step x y.

End path.

(** ** class value *)

Module value.

(** [std::variant<std::string, path, function_call> _value], where
    [function_call] holds a vector of values again. *)
Inductive t : Type :=
| valref (s : string)
| pathref (p : path.t)
| call (f : function_call)
with function_call : Type :=
| mk_function_call (name : string) (parameters : list t).

Definition _function_name (f : function_call) : string :=
  match f with mk_function_call name _ => name end.
Definition _parameters (f : function_call) : list t :=
  match f with mk_function_call _ parameters => parameters end.

(** A default-constructed variant holds a value-initialised first
    alternative, here the empty string. *)
Definition default : t := valref "".

Definition set_valref (s : string) (this : t) : t := valref s.
Definition set_path (p : path.t) (this : t) : t := pathref p.
Definition set_func_name (s : string) (this : t) : t :=
  call (mk_function_call s []).

(** [std::get<function_call>(_value)._parameters.emplace_back(v)] *)
Definition add_func_parameter (v : t) : M t unit :=
  fun this =>
    match this with
    | call f =>
        (call (mk_function_call (_function_name f) (_parameters f ++ [v])),
         Ok tt)
    | _ => (this, Throw bad_variant_access)
    end.

Definition is_valref (this : t) : bool :=
  match this with valref _ => true | _ => false end.
Definition is_function_call (this : t) : bool :=
  match this with call _ => true | _ => false end.
Definition is_path (this : t) : bool :=
  match this with pathref _ => true | _ => false end.

Definition as_valref (this : t) : result string :=
  match this with valref s => Ok s | _ => Throw bad_variant_access end.
Definition as_function_call (this : t) : result function_call :=
  match this with call f => Ok f | _ => Throw bad_variant_access end.
Definition as_path (this : t) : result path.t :=
  match this with pathref p => Ok p | _ => Throw bad_variant_access end.

End value.

(** ** class set_rhs *)

Module set_rhs.

Record t : Type := mk {
  _op : ascii;   (* '+', '-', or 'v' *)
  _v1 : value.t;
  _v2 : value.t
}.

Definition set_value (v1 : value.t) (this : t) : t :=
  {| _op := "v"%char; _v1 := v1; _v2 := _v2 this |}.
Definition set_plus (v2 : value.t) (this : t) : t :=
  {| _op := "+"%char; _v1 := _v1 this; _v2 := v2 |}.
Definition set_minus (v2 : value.t) (this : t) : t :=
  {| _op := "-"%char; _v1 := _v1 this; _v2 := v2 |}.

End set_rhs.

(** ** class update_expression *)

Module update_expression.

Module action.

(** [std::variant<set, remove, add, del> _action] *)
Inductive variant : Type :=
| set (_rhs : set_rhs.t)
| remove
| add (_valref : string)
| del (_valref : string).

Record t : Type := mk {
  _path : path.t;
  _action : variant
}.

Definition assign_set (p : path.t) (rhs : set_rhs.t) (this : t) : t :=
  {| _path := p; _action := set rhs |}.
Definition assign_remove (p : path.t) (this : t) : t :=
  {| _path := p; _action := remove |}.
Definition assign_add (p : path.t) (v : string) (this : t) : t :=
  {| _path := p; _action := add v |}.
Definition assign_del (p : path.t) (v : string) (this : t) : t :=
  {| _path := p; _action := del v |}.

Definition is_set (this : t) : bool :=
  match _action this with set _ => true | _ => false end.
Definition is_remove (this : t) : bool :=
  match _action this with remove => true | _ => false end.
Definition is_add (this : t) : bool :=
  match _action this with add _ => true | _ => false end.
Definition is_del (this : t) : bool :=
  match _action this with del _ => true | _ => false end.

Definition as_set (this : t) : result set_rhs.t :=
  match _action this with set r => Ok r | _ => Throw bad_variant_access end.
Definition as_remove (this : t) : result unit :=
  match _action this with remove => Ok tt | _ => Throw bad_variant_access end.
Definition as_add (this : t) : result string :=
  match _action this with add v => Ok v | _ => Throw bad_variant_access end.
Definition as_del (this : t) : result string :=
  match _action this with del v => Ok v | _ => Throw bad_variant_access end.

End action.

Record t : Type := mk {
  _actions : list action.t;
  seen_set : bool;
  seen_remove : bool;
  seen_add : bool;
  seen_del : bool
}.

(** The default member initialisers: no action, no clause seen. *)
Definition default : t :=
  {| _actions := []; seen_set := false; seen_remove := false;
     seen_add := false; seen_del := false |}.

Definition empty (this : t) : bool :=
  match _actions this with [] => true | _ :: _ => false end.

Definition actions (this : t) : list action.t := _actions this.

(** Modelled from the spec: the scan of [add], whether some action
    accepted so far targets a path structurally equal to [p]. *)
Definition claims (p : path.t) (this : t) : bool :=
  existsb (fun b => path.eqb (action._path b) p) (_actions this).

(** Modelled from the spec: what [add] does to an accepted action, the
    [push_back] and the per-kind bookkeeping. *)
Definition accept (a : action.t) (this : t) : t :=
  {| _actions := _actions this ++ [a];
     seen_set := seen_set this || action.is_set a;
     seen_remove := seen_remove this || action.is_remove a;
     seen_add := seen_add this || action.is_add a;
     seen_del := seen_del this || action.is_del a |}.

(** Modelled from the spec: the body of [void add(action a)], which the
    header only declares.  It fails with [DuplicatePathError] if an action
    added before targets a structurally equal path, whatever the kinds of
    the two actions; otherwise it appends the action, keeping insertion
    order, and records the action's kind in the four [seen_] flags. *)
Definition add (a : action.t) : M t unit :=
  fun this =>
    if claims (action._path a) this
    then throw DuplicatePathError this
    else modify (accept a) this.

(** Modelled from the spec: the last step of [append], the four flags
    merged by logical or. *)
Definition merge_seen (other : t) (this : t) : t :=
  {| _actions := _actions this;
     seen_set := seen_set this || seen_set other;
     seen_remove := seen_remove this || seen_remove other;
     seen_add := seen_add this || seen_add other;
     seen_del := seen_del this || seen_del other |}.

(** Modelled from the spec: the body of [void append(update_expression
    other)], which the header only declares.  It merges the actions of
    [other] into [*this] one at a time through [add], so that the first
    collision aborts the merge with [DuplicatePathError] and leaves the
    actions merged before it in place, and then merges the four [seen_]
    flags by logical or. *)
Definition append (other : t) : M t unit :=
  for_each add (_actions other) ;; modify (merge_seen other).

(** The expressions that the public interface can produce: [_actions] is
    private, so an expression is a default-constructed one on which [add]
    and [append] were called, whether or not a call threw. *)
Inductive reachable : t -> Prop :=
| reachable_default : reachable default
| reachable_add a e :
    reachable e -> reachable (state_after (add a e))
| reachable_append o e :
    reachable o -> reachable e -> reachable (state_after (append o e)).

End update_expression.

(** ** Derived notions *)

Import update_expression.

(** The target paths of the actions accepted so far, in order. *)
Definition paths (e : update_expression.t) : list path.t :=
  map action._path (actions e).

(** The number of the queries in [bs] that answer true. *)
Definition holding (bs : list bool) : nat :=
  List.length (filter (fun b => b) bs).

(** The values on which [set_func_name] was never called: a fresh one, or
    one that [set_valref] or [set_path] initialised. *)
Inductive without_func_name : value.t -> Prop :=
| fresh_value : without_func_name value.default
| after_set_valref s v :
    without_func_name v -> without_func_name (value.set_valref s v)
| after_set_path p v :
    without_func_name v -> without_func_name (value.set_path p v).

(** ** Sample parse trees *)

(** The path [a.b[3]], built the way the grammar does. *)
Definition path_a_b_3 : path.t :=
  path.add_index 3 (path.add_dot "b" (path.set_root "a" path.default)).

(** The same path built a second time, from another object. *)
Definition path_a_b_3' : path.t :=
  path.add_index 3
    (path.add_dot "b" (path.set_root "a" (path.set_root "z" path.default))).

Definition path_a_b : path.t :=
  path.add_dot "b" (path.set_root "a" path.default).

Definition path_c : path.t := path.set_root "c" path.default.

Definition rhs_x_plus_y : set_rhs.t :=
  set_rhs.set_plus (value.set_valref ":y" value.default)
    (set_rhs.set_value (value.set_valref ":x" value.default)
       {| set_rhs._op := zero; set_rhs._v1 := value.default;
          set_rhs._v2 := value.default |}).

Definition blank_action : action.t :=
  {| action._path := path.default;
     action._action :=
       action.set {| set_rhs._op := zero; set_rhs._v1 := value.default;
                     set_rhs._v2 := value.default |} |}.

Definition set_a_b : action.t :=
  action.assign_set path_a_b rhs_x_plus_y blank_action.
Definition remove_c : action.t := action.assign_remove path_c blank_action.
Definition add_c : action.t := action.assign_add path_c ":n" blank_action.
Definition set_a_b_3 : action.t :=
  action.assign_set path_a_b_3 rhs_x_plus_y blank_action.
Definition del_a_b_3 : action.t :=
  action.assign_del path_a_b_3' ":s" blank_action.

(** Two expressions that share the path [c], and one that shares no path
    with the first. *)
Definition expr_ab_c : update_expression.t :=
  state_after (for_each add [set_a_b; remove_c] default).

Definition expr_ab3_c : update_expression.t :=
  state_after (for_each add [del_a_b_3; add_c] default).

Definition expr_ab3 : update_expression.t :=
  state_after (add set_a_b_3 default).

(** ** Sequences of builder calls *)

(** The grammar fills a [path] by a sequence of calls of its three
    setters; [path_run] applies such a sequence to an object, first call
    first. *)
Inductive path_call : Type :=
| call_set_root (root : string)
| call_add_index (i : Z)
| call_add_dot (name : string).

Definition path_apply (c : path_call) (this : path.t) : path.t :=
  match c with
  | call_set_root r => path.set_root r this
  | call_add_index i => path.add_index i this
  | call_add_dot n => path.add_dot n this
  end.

Definition path_run (cs : list path_call) (this : path.t) : path.t :=
  fold_left (fun p c => path_apply c p) cs this.

(** The arguments of the [set_root] calls of a sequence, in call order. *)
Definition roots_of (cs : list path_call) : list string :=
  flat_map (fun c => match c with call_set_root r => [r] | _ => [] end) cs.

(** The steps that the [add_index] and [add_dot] calls of a sequence
    denote, in call order. *)
Definition steps_of (cs : list path_call) : list path.operator :=
  flat_map (fun c =>
              match c with
              | call_set_root _ => []
              | call_add_index i => [path.index (path.to_unsigned i)]
              | call_add_dot n => [path.dot n]
              end) cs.

Definition is_add_call (c : path_call) : bool :=
  match c with call_set_root _ => false | _ => true end.

(** A step whose index, if it is one, is a value of type [unsigned]. *)
Definition step_in_range (x : path.operator) : Prop :=
  match x with
  | path.dot _ => True
  | path.index i => 0 <= i < path.unsigned_max
  end.

(** The three setters of [set_rhs], as calls. *)
Inductive rhs_call : Type :=
| call_set_value (v1 : value.t)
| call_set_plus (v2 : value.t)
| call_set_minus (v2 : value.t).

Definition rhs_apply (c : rhs_call) (this : set_rhs.t) : set_rhs.t :=
  match c with
  | call_set_value v => set_rhs.set_value v this
  | call_set_plus v => set_rhs.set_plus v this
  | call_set_minus v => set_rhs.set_minus v this
  end.

Definition rhs_run (cs : list rhs_call) (this : set_rhs.t) : set_rhs.t :=
  fold_left (fun r c => rhs_apply c r) cs this.

(** The tag that a setter writes to [_op]. *)
Definition rhs_tag (c : rhs_call) : ascii :=
  match c with
  | call_set_value _ => "v"%char
  | call_set_plus _ => "+"%char
  | call_set_minus _ => "-"%char
  end.

Definition writes_v1 (c : rhs_call) : bool :=
  match c with call_set_value _ => true | _ => false end.

Definition writes_v2 (c : rhs_call) : bool := negb (writes_v1 c).

(** Whether an accessor returned or threw. *)
Definition returned {A} (r : result A) : bool :=
  match r with Ok _ => true | Throw _ => false end.

(** The root [a] set on an object whose root was [c] before. *)
Definition path_c_then_a : path.t := path.set_root "a" path_c.

(** The function call [f(:x)]. *)
Definition call_f_x : value.t :=
  state_after (value.add_func_parameter (value.set_valref ":x" value.default)
                 (value.set_func_name "f" value.default)).

(** A [set_rhs] as its implicit default constructor leaves it when it is
    value-initialised. *)
Definition blank_rhs : set_rhs.t :=
  {| set_rhs._op := zero; set_rhs._v1 := value.default;
     set_rhs._v2 := value.default |}.

(** * Properties *)

(** ** The exception monad *)

Section Monad.

Context {S A : Type}.

Lemma for_each_nil (body : A -> M S unit) (s : S) :
  for_each body [] s = (s, Ok tt).
Proof. reflexivity. Qed.

Lemma for_each_cons_ok (body : A -> M S unit) (x : A) (xs : list A) (s s' : S) :
  body x s = (s', Ok tt) ->
  for_each body (x :: xs) s = for_each body xs s'.
Proof. intros H. cbn [for_each]. unfold bind. now rewrite H. Qed.

Lemma for_each_cons_throw (body : A -> M S unit) (x : A) (xs : list A)
      (s s' : S) (e : exn) :
  body x s = (s', Throw e) ->
  for_each body (x :: xs) s = (s', Throw e).
Proof. intros H. cbn [for_each]. unfold bind. now rewrite H. Qed.

End Monad.

(** ** Structural equality of paths *)

Section VectorEqb.

Context {A : Type} (eqb : A -> A -> bool).
Hypothesis eqb_eq : forall x y, eqb x y = true <-> x = y.

Lemma vector_eqb_eq (xs ys : list A) : vector_eqb eqb xs ys = true <-> xs = ys.
Proof.
  revert ys; induction xs as [|x xs IH]; intros [|y ys]; cbn [vector_eqb];
    try (split; [discriminate | discriminate]); [tauto|].
  rewrite andb_true_iff, eqb_eq, IH. split.
  - intros [-> ->]. reflexivity.
  - intros E. injection E as -> ->. split; reflexivity.
Qed.

End VectorEqb.

Lemma operator_eqb_eq (x y : path.operator) :
  path.operator_eqb x y = true <-> x = y.
Proof.
  destruct x as [n|i], y as [m|j]; cbn [path.operator_eqb];
    try (split; discriminate).
  - rewrite String.eqb_eq. split; [intros ->; reflexivity | intros E; now injection E].
  - rewrite Z.eqb_eq. split; [intros ->; reflexivity | intros E; now injection E].
Qed.

Lemma same_step_eq (x y : path.operator) : path.same_step x y <-> x = y.
Proof.
  destruct x as [n|i], y as [m|j]; cbn [path.same_step];
    split; try congruence; try contradiction; intros E; now injection E.
Qed.

Lemma path_eqb_eq (p q : path.t) : path.eqb p q = true <-> p = q.
Proof.
  destruct p as [rp op], q as [rq oq]. unfold path.eqb. cbn [path._root path._operators].
  rewrite andb_true_iff, String.eqb_eq, (vector_eqb_eq _ operator_eqb_eq).
  split.
  - intros [-> ->]. reflexivity.
  - intros E. injection E as -> ->. split; reflexivity.
Qed.

Lemma path_eqb_refl (p : path.t) : path.eqb p p = true.
Proof. now apply path_eqb_eq. Qed.

Lemma path_eqb_neq (p q : path.t) : path.eqb p q = false <-> p <> q.
Proof.
  rewrite <- path_eqb_eq. destruct (path.eqb p q); split; congruence.
Qed.

(** Two step sequences of the same length that agree at every position are
    the same sequence. *)
Lemma same_steps_eq (xs ys : list path.operator) :
  List.length xs = List.length ys ->
  (forall k x y, nth_error xs k = Some x -> nth_error ys k = Some y ->
                 path.same_step x y) ->
  xs = ys.
Proof.
  revert ys; induction xs as [|x xs IH]; intros [|y ys] L H;
    try discriminate L; [reflexivity|].
  f_equal.
  - apply same_step_eq. apply (H 0%nat); reflexivity.
  - apply IH.
    + now injection L.
    + intros k a b Ha Hb. apply (H (Datatypes.S k)); assumption.
Qed.

Lemma structurally_equal_eq (p q : path.t) :
  path.structurally_equal p q <-> p = q.
Proof.
  split.
  - intros (R & L & H). destruct p as [rp op], q as [rq oq].
    cbn [path._root path._operators] in *. subst rq. f_equal.
    now apply same_steps_eq.
  - intros <-. split; [reflexivity|]. split; [reflexivity|].
    intros k x y Hx Hy. apply same_step_eq. congruence.
Qed.

(** ** update_expression: the collision scan *)

Lemma claims_In (p : path.t) (e : update_expression.t) :
  claims p e = true <-> In p (paths e).
Proof.
  unfold claims, paths, actions. rewrite existsb_exists, in_map_iff.
  split; intros (b & H1 & H2); exists b.
  - apply path_eqb_eq in H2. tauto.
  - rewrite path_eqb_eq. tauto.
Qed.

Lemma claims_not_In (p : path.t) (e : update_expression.t) :
  claims p e = false <-> ~ In p (paths e).
Proof.
  rewrite <- claims_In. destruct (claims p e); split; congruence.
Qed.

Lemma add_accepts (a : action.t) (e : update_expression.t) :
  claims (action._path a) e = false -> add a e = (accept a e, Ok tt).
Proof. intros H. unfold add. now rewrite H. Qed.

Lemma add_rejects (a : action.t) (e : update_expression.t) :
  claims (action._path a) e = true -> add a e = (e, Throw DuplicatePathError).
Proof. intros H. unfold add. now rewrite H. Qed.

Lemma actions_accept (a : action.t) (e : update_expression.t) :
  actions (accept a e) = actions e ++ [a].
Proof. reflexivity. Qed.

Lemma paths_accept (a : action.t) (e : update_expression.t) :
  paths (accept a e) = paths e ++ [action._path a].
Proof. unfold paths. rewrite actions_accept. apply map_app. Qed.

(** Whatever [add] answers, the path of its argument is claimed afterwards. *)
Lemma add_claims (a : action.t) (e : update_expression.t) :
  claims (action._path a) (state_after (add a e)) = true.
Proof.
  destruct (claims (action._path a) e) eqn:C.
  - rewrite (add_rejects _ _ C). exact C.
  - rewrite (add_accepts _ _ C). apply claims_In.
    cbn [state_after fst]. rewrite paths_accept, in_app_iff. right. now left.
Qed.

(** An accepted action is the only one of its path. *)
Lemma accept_sole_entry (a : action.t) (e : update_expression.t) :
  claims (action._path a) e = false ->
  filter (fun b => path.eqb (action._path b) (action._path a))
         (actions (accept a e)) = [a].
Proof.
  intros C. rewrite actions_accept, filter_app. cbn [filter].
  rewrite path_eqb_refl.
  replace (filter _ (actions e)) with (@nil action.t); [reflexivity|].
  symmetry. unfold claims in C. fold (actions e) in C.
  induction (actions e) as [|b l IH]; [reflexivity|].
  cbn [existsb] in C. apply orb_false_iff in C as [C1 C2].
  cbn [filter]. rewrite C1. now apply IH.
Qed.

(** ** update_expression: adding a sequence of actions *)

(** The loop of [append]: each action whose path is free is accepted in
    turn. *)
Lemma add_all_accepts (l : list action.t) : forall e : update_expression.t,
  NoDup (map action._path l) ->
  (forall a, In a l -> ~ In (action._path a) (paths e)) ->
  outcome (for_each add l e) = Ok tt
  /\ actions (state_after (for_each add l e)) = actions e ++ l.
Proof.
  induction l as [|a l IH]; intros e N D.
  - rewrite for_each_nil. cbn. now rewrite app_nil_r.
  - cbn [map] in N. inversion N as [|? ? Hnotin N']; subst.
    assert (C : claims (action._path a) e = false).
    { apply claims_not_In. apply D. now left. }
    rewrite (for_each_cons_ok _ _ _ _ _ (add_accepts _ _ C)).
    destruct (IH (accept a e) N') as [O Acts].
    + intros b Hb. rewrite paths_accept, in_app_iff. intros [H|[H|[]]].
      * apply (D b); [now right | exact H].
      * apply Hnotin. rewrite H. now apply in_map.
    + split; [exact O|]. rewrite Acts, actions_accept, <- app_assoc. reflexivity.
Qed.

(** The loop stops at the first rejected action: what it merged is a
    proper initial part of the sequence, behind what was there before. *)
Lemma add_all_collision (l : list action.t) : forall e : update_expression.t,
  (exists a, In a l /\ In (action._path a) (paths e)) ->
  outcome (for_each add l e) = Throw DuplicatePathError
  /\ exists merged rest,
       l = merged ++ rest /\ rest <> []
       /\ actions (state_after (for_each add l e)) = actions e ++ merged.
Proof.
  induction l as [|a l IH]; intros e (a0 & Hin & Hp).
  - destruct Hin.
  - destruct (claims (action._path a) e) eqn:C.
    + rewrite (for_each_cons_throw _ _ _ _ _ _ (add_rejects _ _ C)).
      split; [reflexivity|]. exists [], (a :: l). cbn [app state_after fst].
      rewrite app_nil_r. repeat split. discriminate.
    + rewrite (for_each_cons_ok _ _ _ _ _ (add_accepts _ _ C)).
      destruct (IH (accept a e)) as (O & merged & rest & E & NE & Acts).
      * exists a0. destruct Hin as [<-|Hin].
        -- apply claims_not_In in C. contradiction.
        -- split; [exact Hin|]. rewrite paths_accept, in_app_iff. now left.
      * split; [exact O|]. exists (a :: merged), rest.
        rewrite Acts, actions_accept, <- app_assoc, E. repeat split. exact NE.
Qed.

(** The loop never removes or reorders what was there, and keeps the
    paths distinct if they were. *)
Lemma add_all_nodup (l : list action.t) : forall e : update_expression.t,
  NoDup (paths e) -> NoDup (paths (state_after (for_each add l e))).
Proof.
  induction l as [|a l IH]; intros e N; [exact N|].
  destruct (claims (action._path a) e) eqn:C.
  - rewrite (for_each_cons_throw _ _ _ _ _ _ (add_rejects _ _ C)). exact N.
  - rewrite (for_each_cons_ok _ _ _ _ _ (add_accepts _ _ C)). apply IH.
    rewrite paths_accept. apply NoDup_app; repeat split.
    + exact N.
    + constructor; [intros []|constructor].
    + intros p Hp [<-|[]]. apply claims_not_In in C. contradiction.
Qed.

Lemma append_unfold (other self : update_expression.t) :
  append other self =
    match for_each add (_actions other) self with
    | (s, Ok _) => (merge_seen other s, Ok tt)
    | (s, Throw x) => (s, Throw x)
    end.
Proof. reflexivity. Qed.

(** Invariant 1 of the data model: no two actions of an expression target
    the same path. *)
Lemma reachable_no_duplicate_path (e : update_expression.t) :
  reachable e -> NoDup (paths e).
Proof.
  induction 1 as [|a e R IH|o e Ro IHo Re IHe].
  - constructor.
  - apply (add_all_nodup [a] e) in IH. cbn [for_each] in IH.
    unfold bind in IH. destruct (add a e) as [s [[]|x]]; exact IH.
  - rewrite append_unfold. pose proof (add_all_nodup (_actions o) e IHe) as N.
    destruct (for_each add (_actions o) e) as [s [[]|x]]; exact N.
Qed.

(** ** update_expression::add *)

(** C1: if two actions target structurally equal paths (same root, same
    ordered step sequence, whatever their kinds), then once the first was
    passed to [add], passing the second to [add] throws
    [DuplicatePathError] and leaves the expression as it was; and when the
    first was accepted, it is the only entry of [actions()] for that
    path. *)
Theorem add_same_path_twice_throws
        (e : update_expression.t) (a1 a2 : action.t) :
  path._root (action._path a1) = path._root (action._path a2) ->
  path._operators (action._path a1) = path._operators (action._path a2) ->
  let e1 := state_after (add a1 e) in
  add a2 e1 = (e1, Throw DuplicatePathError)
  /\ (outcome (add a1 e) = Ok tt ->
      filter (fun b => path.eqb (action._path b) (action._path a1))
             (actions (state_after (add a2 e1))) = [a1]).
Proof.
  intros R O e1.
  assert (P : action._path a2 = action._path a1).
  { destruct (action._path a1), (action._path a2). cbn in R, O. congruence. }
  assert (T : add a2 e1 = (e1, Throw DuplicatePathError)).
  { apply add_rejects. rewrite P. apply add_claims. }
  split; [exact T|]. rewrite T. cbn [state_after fst]. subst e1.
  destruct (claims (action._path a1) e) eqn:C.
  - rewrite (add_rejects _ _ C). discriminate.
  - rewrite (add_accepts _ _ C). intros _. now apply accept_sole_entry.
Qed.

Lemma add_same_path_twice_throws_witness :
  path._root (action._path set_a_b_3) = path._root (action._path del_a_b_3)
  /\ path._operators (action._path set_a_b_3)
     = path._operators (action._path del_a_b_3)
  /\ (let e1 := state_after (add set_a_b_3 default) in
      add del_a_b_3 e1 = (e1, Throw DuplicatePathError)
      /\ (outcome (add set_a_b_3 default) = Ok tt ->
          filter (fun b => path.eqb (action._path b) (action._path set_a_b_3))
                 (actions (state_after (add del_a_b_3 e1))) = [set_a_b_3])).
Proof.
  split; [reflexivity|]. split; [reflexivity|].
  apply (add_same_path_twice_throws default set_a_b_3 del_a_b_3); reflexivity.
Defined.

(** C2: when the target paths of a sequence of actions are pairwise
    distinct, every [add] call on a fresh expression succeeds, each one in
    its turn, and [actions()] then returns exactly the sequence, in the
    order of the calls. *)
Theorem add_distinct_paths_in_order (l : list action.t) :
  NoDup (map action._path l) ->
  (forall l1 a l2, l = l1 ++ a :: l2 ->
     outcome (add a (state_after (for_each add l1 default))) = Ok tt)
  /\ outcome (for_each add l default) = Ok tt
  /\ actions (state_after (for_each add l default)) = l.
Proof.
  intros N. split.
  - intros l1 a l2 ->. rewrite map_app in N. cbn [map] in N.
    pose proof (NoDup_remove_2 _ _ _ N) as Hnotin.
    apply NoDup_remove_1, NoDup_app_remove_r in N.
    destruct (add_all_accepts l1 default N) as [_ Acts]; [intros ? _ []|].
    rewrite add_accepts; [reflexivity|].
    apply claims_not_In. unfold paths. rewrite Acts. cbn [actions default _actions app].
    intros H. apply Hnotin. rewrite in_app_iff. now left.
  - apply (add_all_accepts l default N). intros ? _ [].
Qed.

Lemma add_distinct_paths_in_order_witness :
  NoDup (map action._path [set_a_b; remove_c; set_a_b_3])
  /\ outcome (for_each add [set_a_b; remove_c; set_a_b_3] default) = Ok tt
  /\ actions (state_after (for_each add [set_a_b; remove_c; set_a_b_3] default))
     = [set_a_b; remove_c; set_a_b_3].
Proof.
  assert (N : NoDup (map action._path [set_a_b; remove_c; set_a_b_3])).
  { repeat constructor; cbn; intuition discriminate. }
  split; [exact N|].
  exact (proj2 (add_distinct_paths_in_order [set_a_b; remove_c; set_a_b_3] N)).
Defined.

(** ** update_expression::append *)

(** C3: if [other] holds an action whose target path is structurally equal
    to that of an action already in [self], then [append(other)] throws
    [DuplicatePathError], and [self] still holds all its original actions,
    in their place, followed by the actions of [other] that precede the
    first collision. *)
Theorem append_collision_throws (self other : update_expression.t) :
  (exists a b, In a (actions other) /\ In b (actions self)
               /\ action._path a = action._path b) ->
  outcome (append other self) = Throw DuplicatePathError
  /\ exists merged rest,
       actions other = merged ++ rest /\ rest <> []
       /\ actions (state_after (append other self)) = actions self ++ merged.
Proof.
  intros (a & b & Ha & Hb & E).
  destruct (add_all_collision (_actions other) self) as (O & merged & rest & H).
  { exists a. split; [exact Ha|]. rewrite E. unfold paths. now apply in_map. }
  rewrite append_unfold.
  destruct (for_each add (_actions other) self) as [s [[]|x]];
    cbn [outcome snd state_after fst] in *; [discriminate O|].
  split; [exact O|]. exists merged, rest. exact H.
Qed.

Lemma append_collision_throws_witness :
  (exists a b, In a (actions expr_ab3_c) /\ In b (actions expr_ab_c)
               /\ action._path a = action._path b)
  /\ outcome (append expr_ab3_c expr_ab_c) = Throw DuplicatePathError
  /\ exists merged rest,
       actions expr_ab3_c = merged ++ rest /\ rest <> []
       /\ actions (state_after (append expr_ab3_c expr_ab_c))
          = actions expr_ab_c ++ merged.
Proof.
  assert (H : exists a b, In a (actions expr_ab3_c) /\ In b (actions expr_ab_c)
                          /\ action._path a = action._path b).
  { exists add_c, remove_c. cbn. intuition. }
  split; [exact H|]. exact (append_collision_throws expr_ab_c expr_ab3_c H).
Defined.

(** C4: if [other] is an expression built through the public interface and
    no target path of [other] is a target path of [self], then
    [append(other)] succeeds, [self] then holds its own actions followed by
    those of [other], and their number is the sum of the two counts. *)
Theorem append_disjoint_merges (self other : update_expression.t) :
  reachable other ->
  (forall p, In p (paths self) -> In p (paths other) -> False) ->
  outcome (append other self) = Ok tt
  /\ actions (state_after (append other self)) = actions self ++ actions other
  /\ List.length (actions (state_after (append other self)))
     = (List.length (actions self) + List.length (actions other))%nat.
Proof.
  intros R D.
  destruct (add_all_accepts (_actions other) self) as [O Acts].
  { exact (reachable_no_duplicate_path other R). }
  { intros a Ha Hs. apply (D (action._path a) Hs). unfold paths. now apply in_map. }
  rewrite append_unfold.
  destruct (for_each add (_actions other) self) as [s [[]|x]];
    cbn [outcome snd state_after fst] in *; [|discriminate O].
  split; [reflexivity|].
  assert (E : actions (merge_seen other s) = actions self ++ actions other)
    by exact Acts.
  split; [exact E|]. rewrite E. apply length_app.
Qed.

Lemma append_disjoint_merges_witness :
  reachable expr_ab3
  /\ (forall p, In p (paths expr_ab_c) -> In p (paths expr_ab3) -> False)
  /\ outcome (append expr_ab3 expr_ab_c) = Ok tt
  /\ actions (state_after (append expr_ab3 expr_ab_c))
     = actions expr_ab_c ++ actions expr_ab3
  /\ List.length (actions (state_after (append expr_ab3 expr_ab_c)))
     = (List.length (actions expr_ab_c) + List.length (actions expr_ab3))%nat.
Proof.
  assert (R : reachable expr_ab3) by (apply reachable_add, reachable_default).
  assert (D : forall p, In p (paths expr_ab_c) -> In p (paths expr_ab3) -> False).
  { intros p [<-|[<-|[]]] [H|[]]; discriminate H. }
  split; [exact R|]. split; [exact D|].
  exact (append_disjoint_merges expr_ab_c expr_ab3 R D).
Defined.

(** ** Path equality *)

(** C5: the path equality of the collision scan is structural: it holds
    exactly when the two paths have the same root and the same steps (same
    number of steps, same kind and same value at each position), so two
    actions that target two such paths, however the paths were built, are
    taken to target the same path and the second [add] throws; the
    comparison tells a field name from the same name in another case and
    from an index. *)
Theorem path_equality_is_structural (p q : path.t) :
  (path.eqb p q = true <-> path.structurally_equal p q)
  /\ (path.structurally_equal p q ->
      forall (e : update_expression.t) (a1 a2 : action.t),
        action._path a1 = p -> action._path a2 = q ->
        add a2 (state_after (add a1 e))
        = (state_after (add a1 e), Throw DuplicatePathError))
  /\ path.eqb (path.add_dot "b" p) (path.add_dot "B" p) = false
  /\ path.eqb (path.add_dot "3" p) (path.add_index 3 p) = false.
Proof.
  split; [|split; [|split]].
  - rewrite path_eqb_eq. symmetry. apply structurally_equal_eq.
  - intros H e a1 a2 <- <-. apply structurally_equal_eq in H.
    apply add_rejects. rewrite <- H. apply add_claims.
  - apply path_eqb_neq. unfold path.add_dot. intros E.
    injection E as E. apply app_inv_head in E. discriminate E.
  - apply path_eqb_neq. unfold path.add_dot, path.add_index. intros E.
    injection E as E. apply app_inv_head in E. discriminate E.
Qed.

Lemma path_equality_is_structural_witness :
  path.structurally_equal path_a_b_3 path_a_b_3'
  /\ path.eqb path_a_b_3 path_a_b_3' = true
  /\ add del_a_b_3 (state_after (add set_a_b_3 expr_ab_c))
     = (state_after (add set_a_b_3 expr_ab_c), Throw DuplicatePathError).
Proof.
  assert (S : path.structurally_equal path_a_b_3 path_a_b_3').
  { split; [reflexivity|]. split; [reflexivity|].
    intros [|[|[|k]]] x y Hx Hy; cbn in Hx, Hy; try discriminate Hx;
      injection Hx as <-; injection Hy as <-; reflexivity. }
  destruct (path_equality_is_structural path_a_b_3 path_a_b_3') as (I & C & _).
  split; [exact S|]. split; [exact (proj2 I S)|].
  exact (C S expr_ab_c set_a_b_3 del_a_b_3 eq_refl eq_refl).
Defined.

(** ** set_rhs *)

(** C6: on any [set_rhs], [set_value(v1)] sets the tag to ['v'] and
    operand 1 to [v1]; a following [set_plus(v2)] (respectively
    [set_minus(v2)]) sets the tag to ['+'] (respectively ['-']) and operand
    2 to [v2], and leaves operand 1 equal to [v1]. *)
Theorem set_rhs_two_phase_fill (r : set_rhs.t) (v1 v2 : value.t) :
  let r1 := set_rhs.set_value v1 r in
  (set_rhs._op r1 = "v"%char /\ set_rhs._v1 r1 = v1)
  /\ (let r2 := set_rhs.set_plus v2 r1 in
      set_rhs._op r2 = "+"%char /\ set_rhs._v1 r2 = v1 /\ set_rhs._v2 r2 = v2)
  /\ (let r2 := set_rhs.set_minus v2 r1 in
      set_rhs._op r2 = "-"%char /\ set_rhs._v1 r2 = v1 /\ set_rhs._v2 r2 = v2).
Proof. cbv zeta. repeat split. Qed.

(** ** value *)

Lemma add_func_parameters_call (vs : list value.t) :
  forall (s : string) (ps : list value.t),
    for_each value.add_func_parameter vs (value.call (value.mk_function_call s ps))
    = (value.call (value.mk_function_call s (ps ++ vs)), Ok tt).
Proof.
  induction vs as [|v vs IH]; intros s ps.
  - rewrite for_each_nil, app_nil_r. reflexivity.
  - rewrite (for_each_cons_ok value.add_func_parameter v vs _
               (value.call (value.mk_function_call s (ps ++ [v])))).
    + rewrite IH, <- app_assoc. reflexivity.
    + reflexivity.
Qed.

(** C7: [set_func_name(s)] followed by [add_func_parameter] for each of
    the values [vs] in turn never throws and leaves a value for which
    [is_function_call()] holds and whose [as_function_call()] has the
    name [s] and the parameters [vs], as many as were appended and in the
    order of the calls. *)
Theorem function_call_keeps_parameters_in_order
        (v0 : value.t) (s : string) (vs : list value.t) :
  let r := for_each value.add_func_parameter vs (value.set_func_name s v0) in
  outcome r = Ok tt
  /\ value.is_function_call (state_after r) = true
  /\ (exists f, value.as_function_call (state_after r) = Ok f
                /\ value._function_name f = s
                /\ value._parameters f = vs
                /\ List.length (value._parameters f) = List.length vs).
Proof.
  cbv zeta. unfold value.set_func_name. rewrite add_func_parameters_call.
  cbn. repeat split. exists (value.mk_function_call s vs). repeat split.
Qed.

(** C8: for every value exactly one of [is_valref()], [is_path()] and
    [is_function_call()] returns true, and for every action exactly one of
    [is_set()], [is_remove()], [is_add()] and [is_del()] returns true; after
    an [assign_] call it is the query of the assigned kind. *)
Theorem variant_queries_exclusive_and_exhaustive :
  (forall v : value.t,
     holding [value.is_valref v; value.is_path v; value.is_function_call v]
     = 1%nat)
  /\ (forall a : action.t,
        holding [action.is_set a; action.is_remove a;
                 action.is_add a; action.is_del a] = 1%nat)
  /\ (forall (a : action.t) (p : path.t) (rhs : set_rhs.t) (v : string),
        action.is_set (action.assign_set p rhs a) = true
        /\ action.is_remove (action.assign_remove p a) = true
        /\ action.is_add (action.assign_add p v a) = true
        /\ action.is_del (action.assign_del p v a) = true).
Proof.
  split; [|split].
  - intros [s|p|f]; reflexivity.
  - intros [p [rhs| |v|v]]; reflexivity.
  - intros a p rhs v. repeat split.
Qed.

Lemma add_func_parameter_wrong_variant (v w : value.t) :
  value.is_function_call v = false ->
  value.add_func_parameter w v = (v, Throw bad_variant_access).
Proof. destruct v; [reflexivity|reflexivity|discriminate]. Qed.

(** C9: on a value on which [set_func_name] was not called,
    [add_func_parameter] signals the contract error for a builder call out
    of order, which the header raises as [std::get]'s
    [bad_variant_access], and the value is as it was. *)
Theorem add_func_parameter_before_func_name_throws (v w : value.t) :
  without_func_name v ->
  value.add_func_parameter w v = (v, Throw bad_variant_access).
Proof.
  intros H. apply add_func_parameter_wrong_variant.
  destruct H; reflexivity.
Qed.

Lemma add_func_parameter_before_func_name_throws_witness :
  without_func_name (value.set_path path_a_b (value.set_valref ":x" value.default))
  /\ value.add_func_parameter (value.set_valref ":y" value.default)
       (value.set_path path_a_b (value.set_valref ":x" value.default))
     = (value.set_path path_a_b (value.set_valref ":x" value.default),
        Throw bad_variant_access).
Proof.
  assert (H : without_func_name
                (value.set_path path_a_b (value.set_valref ":x" value.default))).
  { apply after_set_path, after_set_valref, fresh_value. }
  split; [exact H|].
  exact (add_func_parameter_before_func_name_throws _ _ H).
Defined.

(** C10: a default-constructed value holds the value-reference
    alternative: [is_valref()] is true, [is_path()] and
    [is_function_call()] are false, and [as_valref()] returns the empty
    string. *)
Theorem default_value_is_empty_valref :
  value.is_valref value.default = true
  /\ value.is_path value.default = false
  /\ value.is_function_call value.default = false
  /\ value.as_valref value.default = Ok ""%string.
Proof. repeat split. Qed.

(** ** path: the builder *)

Lemma path_run_app (cs ds : list path_call) (p : path.t) :
  path_run (cs ++ ds) p = path_run ds (path_run cs p).
Proof. apply fold_left_app. Qed.

Lemma last_cons_default {A} (l : list A) (x d : A) :
  last (x :: l) d = last l x.
Proof.
  revert x d; induction l as [|y l IH]; intros x d; [reflexivity|].
  change (last (x :: y :: l) d) with (last (y :: l) d).
  rewrite (IH y d), (IH y x). reflexivity.
Qed.

(** Whatever the order of the setter calls, [root()] is the argument of the
    last [set_root] call (the root the object had, if there was none), and
    the steps are those the object had followed by one step for each
    [add_index] and [add_dot] call, in call order: [set_root] never touches
    the steps and the two [add_] setters never touch the root. *)
Theorem path_run_root_and_steps (cs : list path_call) (p : path.t) :
  path.root (path_run cs p) = last (roots_of cs) (path.root p)
  /\ path._operators (path_run cs p) = path._operators p ++ steps_of cs.
Proof.
  revert p; induction cs as [|c cs IH]; intros p.
  - cbn. now rewrite app_nil_r.
  - change (path_run (c :: cs) p) with (path_run cs (path_apply c p)).
    destruct (IH (path_apply c p)) as [R O]. rewrite R, O.
    destruct c as [r|i|n]; cbn [roots_of steps_of flat_map app path_apply].
    + fold (roots_of cs). rewrite last_cons_default. split; reflexivity.
    + fold (steps_of cs). split; [reflexivity|].
      unfold path.add_index. cbn [path._operators].
      rewrite <- app_assoc. reflexivity.
    + fold (steps_of cs). split; [reflexivity|].
      unfold path.add_dot. cbn [path._operators].
      rewrite <- app_assoc. reflexivity.
Qed.

(** [has_operators()] answers true exactly when the object had a step
    already or one of the calls made since was [add_index] or [add_dot];
    on a default-constructed path it tells whether such a call was made. *)
Theorem has_operators_after_calls (cs : list path_call) (p : path.t) :
  path.has_operators (path_run cs p)
  = path.has_operators p || existsb is_add_call cs
  /\ path.has_operators (path_run cs path.default) = existsb is_add_call cs.
Proof.
  assert (G : forall q, path.has_operators (path_run cs q)
                        = path.has_operators q || existsb is_add_call cs).
  { induction cs as [|c cs IH]; intros q.
    - cbn [path_run fold_left existsb]. now rewrite orb_false_r.
    - change (path_run (c :: cs) q) with (path_run cs (path_apply c q)).
      rewrite IH. cbn [existsb]. unfold path.has_operators.
      destruct c as [r|i|n]; cbn [path_apply is_add_call].
      + reflexivity.
      + unfold path.add_index. cbn [path._operators].
        destruct (path._operators q); cbn; now rewrite ?orb_true_r.
      + unfold path.add_dot. cbn [path._operators].
        destruct (path._operators q); cbn; now rewrite ?orb_true_r. }
  split; [apply G|]. rewrite G. reflexivity.
Qed.

Lemma to_unsigned_range (i : Z) : 0 <= path.to_unsigned i < path.unsigned_max.
Proof. apply Z.mod_pos_bound. reflexivity. Qed.

(** Every index step of a path built from a default-constructed one is a
    value of type [unsigned], in [0, 2^32): [add_index] receives its
    argument converted to that type, so two arguments that differ by a
    multiple of [2^32] give the same path, and an argument already in range
    is stored as it is. *)
Theorem path_indexes_are_unsigned (cs : list path_call) (i k : Z) (p : path.t) :
  Forall step_in_range (path._operators (path_run cs path.default))
  /\ path.add_index (i + k * path.unsigned_max) p = path.add_index i p
  /\ (0 <= i < path.unsigned_max ->
      path._operators (path.add_index i p)
      = path._operators p ++ [path.index i]).
Proof.
  split; [|split].
  - destruct (path_run_root_and_steps cs path.default) as [_ ->].
    cbn [path.default path._operators app].
    induction cs as [|[r|j|n] cs IH]; cbn [steps_of flat_map app].
    + constructor.
    + exact IH.
    + constructor; [apply to_unsigned_range | exact IH].
    + constructor; [exact I | exact IH].
  - unfold path.add_index, path.to_unsigned.
    rewrite Z.mod_add; [reflexivity|discriminate].
  - intros H. unfold path.add_index, path.to_unsigned. cbn [path._operators].
    rewrite Z.mod_small; [reflexivity|exact H].
Qed.

Lemma path_indexes_are_unsigned_witness :
  0 <= 3 < path.unsigned_max
  /\ path._operators (path.add_index 3 path_a_b)
     = path._operators path_a_b ++ [path.index 3].
Proof.
  assert (H : 0 <= 3 < path.unsigned_max) by (split; [discriminate|reflexivity]).
  split; [exact H|].
  exact (proj2 (proj2 (path_indexes_are_unsigned [] 3 0 path_a_b)) H).
Defined.

(** An [add_] call is never lost or confused with another: the path
    after [add_dot] determines the name and the path before the call, the
    path after [add_index] determines the index as an [unsigned] and the
    path before, and no [add_dot] gives the path of an [add_index]. *)
Theorem path_add_calls_injective (p q : path.t) (n m : string) (i j : Z) :
  (path.add_dot n p = path.add_dot m q -> n = m /\ p = q)
  /\ (path.add_index i p = path.add_index j q ->
      path.to_unsigned i = path.to_unsigned j /\ p = q)
  /\ path.add_dot n p <> path.add_index i q.
Proof.
  destruct p as [rp op], q as [rq oq].
  unfold path.add_dot, path.add_index. cbn [path._root path._operators].
  split; [|split].
  - intros E. injection E as -> E. apply app_inj_tail in E as [-> E].
    injection E as ->. split; reflexivity.
  - intros E. injection E as -> E. apply app_inj_tail in E as [-> E].
    injection E as E. split; [exact E|reflexivity].
  - intros E. injection E as _ E. apply app_inj_tail in E as [_ E].
    discriminate E.
Qed.

Lemma path_add_calls_injective_witness :
  path.add_dot "b" path_a_b = path.add_dot "b" (path.add_dot "b" path_c_then_a)
  /\ ("b"%string = "b"%string /\ path_a_b = path.add_dot "b" path_c_then_a).
Proof.
  assert (E : path.add_dot "b" path_a_b
              = path.add_dot "b" (path.add_dot "b" path_c_then_a))
    by reflexivity.
  split; [exact E|].
  exact (proj1 (path_add_calls_injective
                  path_a_b (path.add_dot "b" path_c_then_a) "b" "b" 0 0) E).
Defined.

(** ** value: discriminants, accessors and initialisers *)

(** Each accessor returns exactly when the query of its alternative
    answers true, and throws [std::bad_variant_access] otherwise; so for
    every value exactly one of the three accessors returns. *)
Theorem value_accessor_returns_iff_query (v : value.t) :
  returned (value.as_valref v) = value.is_valref v
  /\ returned (value.as_path v) = value.is_path v
  /\ returned (value.as_function_call v) = value.is_function_call v
  /\ (value.is_valref v = false ->
      value.as_valref v = Throw bad_variant_access)
  /\ (value.is_path v = false ->
      value.as_path v = Throw bad_variant_access)
  /\ (value.is_function_call v = false ->
      value.as_function_call v = Throw bad_variant_access)
  /\ holding [returned (value.as_valref v); returned (value.as_path v);
              returned (value.as_function_call v)] = 1%nat.
Proof.
  destruct v as [s|p|f]; cbn; repeat split; intros; discriminate.
Qed.

Lemma value_accessor_returns_iff_query_witness :
  value.is_valref (value.set_path path_a_b value.default) = false
  /\ value.as_valref (value.set_path path_a_b value.default)
     = Throw bad_variant_access.
Proof.
  split; [reflexivity|].
  destruct (value_accessor_returns_iff_query
              (value.set_path path_a_b value.default)) as (_ & _ & _ & H & _).
  apply H. reflexivity.
Defined.

(** The last initialiser wins, whatever the value held before: the
    accessor of its alternative returns what was set, and [set_func_name]
    starts with no parameter, so that calling it on a function call that
    already has parameters drops them. *)
Theorem value_initialisers_overwrite
        (v : value.t) (s : string) (p : path.t) (vs : list value.t) :
  value.as_valref (value.set_valref s v) = Ok s
  /\ value.as_path (value.set_path p v) = Ok p
  /\ value.as_function_call (value.set_func_name s v)
     = Ok (value.mk_function_call s [])
  /\ value.as_function_call
       (value.set_func_name s
          (state_after (for_each value.add_func_parameter vs
                          (value.set_func_name s v))))
     = Ok (value.mk_function_call s [])
  /\ value.set_valref s (value.set_func_name s v) = value.set_valref s v.
Proof. repeat split. Qed.

(** [add_func_parameter] returns exactly on a function call; it then
    keeps the name and the parameters already there, adds the new one
    behind them, and the value is still a function call; otherwise the
    value is unchanged. *)
Theorem add_func_parameter_returns_iff_function_call (v w : value.t) :
  returned (outcome (value.add_func_parameter w v)) = value.is_function_call v
  /\ (forall f, value.as_function_call v = Ok f ->
        value.as_function_call (state_after (value.add_func_parameter w v))
        = Ok (value.mk_function_call (value._function_name f)
                (value._parameters f ++ [w])))
  /\ (value.is_function_call v = false ->
      state_after (value.add_func_parameter w v) = v).
Proof.
  destruct v as [s|p|f]; cbn; repeat split; try discriminate.
  intros g E. injection E as <-. reflexivity.
Qed.

Lemma add_func_parameter_returns_iff_function_call_witness :
  value.as_function_call call_f_x
  = Ok (value.mk_function_call "f" [value.valref ":x"])
  /\ value.as_function_call
       (state_after (value.add_func_parameter call_f_x call_f_x))
     = Ok (value.mk_function_call "f" [value.valref ":x"; call_f_x]).
Proof.
  split; [reflexivity|].
  destruct (add_func_parameter_returns_iff_function_call call_f_x call_f_x)
    as (_ & H & _).
  exact (H (value.mk_function_call "f" [value.valref ":x"]) eq_refl).
Defined.

(** ** set_rhs: sequences of setter calls *)

Lemma rhs_run_app (cs ds : list rhs_call) (r : set_rhs.t) :
  rhs_run (cs ++ ds) r = rhs_run ds (rhs_run cs r).
Proof. apply fold_left_app. Qed.

Lemma rhs_run_v1_frame (cs : list rhs_call) : forall r : set_rhs.t,
  existsb writes_v1 cs = false ->
  set_rhs._v1 (rhs_run cs r) = set_rhs._v1 r.
Proof.
  induction cs as [|c cs IH]; intros r H; [reflexivity|].
  cbn [existsb] in H. apply orb_false_iff in H as [Hc H].
  change (rhs_run (c :: cs) r) with (rhs_run cs (rhs_apply c r)).
  rewrite (IH _ H). destruct c; [discriminate Hc|reflexivity|reflexivity].
Qed.

Lemma rhs_run_v2_frame (cs : list rhs_call) : forall r : set_rhs.t,
  existsb writes_v2 cs = false ->
  set_rhs._v2 (rhs_run cs r) = set_rhs._v2 r.
Proof.
  induction cs as [|c cs IH]; intros r H; [reflexivity|].
  cbn [existsb] in H. apply orb_false_iff in H as [Hc H].
  change (rhs_run (c :: cs) r) with (rhs_run cs (rhs_apply c r)).
  rewrite (IH _ H). destruct c; [reflexivity|discriminate Hc|discriminate Hc].
Qed.

(** After any sequence of setter calls that is not empty, [_op] is the tag
    of the last call, hence one of ['v'], ['+'] and ['-'], whatever it was
    before (a default-initialised [set_rhs] leaves it indeterminate). *)
Theorem set_rhs_tag_of_last_call
        (cs : list rhs_call) (c : rhs_call) (r : set_rhs.t) :
  set_rhs._op (rhs_run (cs ++ [c]) r) = rhs_tag c
  /\ In (set_rhs._op (rhs_run (cs ++ [c]) r)) ["v"%char; "+"%char; "-"%char].
Proof.
  rewrite rhs_run_app. cbn [rhs_run fold_left].
  destruct c; cbn; auto.
Qed.

(** Operand 1 is written by [set_value] only and operand 2 by [set_plus]
    and [set_minus] only: after a sequence of calls each operand is the
    argument of the last call that writes it, and is what it was if no
    call does.  In particular [set_value] after [set_plus] turns the tag
    back to ['v'] and leaves the second operand of the sum in [_v2]. *)
Theorem set_rhs_operands_of_last_writers
        (cs ds : list rhs_call) (v : value.t) (r : set_rhs.t) :
  (existsb writes_v1 cs = false ->
   set_rhs._v1 (rhs_run cs r) = set_rhs._v1 r)
  /\ (existsb writes_v2 cs = false ->
      set_rhs._v2 (rhs_run cs r) = set_rhs._v2 r)
  /\ (existsb writes_v1 ds = false ->
      set_rhs._v1 (rhs_run (cs ++ call_set_value v :: ds) r) = v)
  /\ (existsb writes_v2 ds = false ->
      set_rhs._v2 (rhs_run (cs ++ call_set_plus v :: ds) r) = v
      /\ set_rhs._v2 (rhs_run (cs ++ call_set_minus v :: ds) r) = v).
Proof.
  split; [apply rhs_run_v1_frame|]. split; [apply rhs_run_v2_frame|].
  split.
  - intros H. rewrite rhs_run_app.
    change (rhs_run (call_set_value v :: ds) (rhs_run cs r))
      with (rhs_run ds (set_rhs.set_value v (rhs_run cs r))).
    now rewrite rhs_run_v1_frame.
  - intros H. rewrite !rhs_run_app.
    change (rhs_run (call_set_plus v :: ds) (rhs_run cs r))
      with (rhs_run ds (set_rhs.set_plus v (rhs_run cs r))).
    change (rhs_run (call_set_minus v :: ds) (rhs_run cs r))
      with (rhs_run ds (set_rhs.set_minus v (rhs_run cs r))).
    now rewrite !rhs_run_v2_frame.
Qed.

Lemma set_rhs_operands_of_last_writers_witness :
  existsb writes_v2 [call_set_value (value.valref ":z")] = false
  /\ set_rhs._v2
       (rhs_run ([call_set_value (value.valref ":x")]
                 ++ call_set_plus (value.valref ":y")
                 :: [call_set_value (value.valref ":z")]) blank_rhs)
     = value.valref ":y"
  /\ set_rhs._op
       (rhs_run ([call_set_value (value.valref ":x")]
                 ++ call_set_plus (value.valref ":y")
                 :: [call_set_value (value.valref ":z")]) blank_rhs)
     = "v"%char.
Proof.
  split; [reflexivity|].
  destruct (set_rhs_operands_of_last_writers
              [call_set_value (value.valref ":x")]
              [call_set_value (value.valref ":z")]
              (value.valref ":y") blank_rhs) as (_ & _ & _ & H).
  split; [exact (proj1 (H eq_refl))|reflexivity].
Defined.

(** ** action: discriminants, accessors and the assign_ calls *)

(** Each accessor of an action returns exactly when the query of its kind
    answers true and throws [std::bad_variant_access] otherwise, so exactly
    one of the four returns. *)
Theorem action_accessor_returns_iff_query (a : action.t) :
  returned (action.as_set a) = action.is_set a
  /\ returned (action.as_remove a) = action.is_remove a
  /\ returned (action.as_add a) = action.is_add a
  /\ returned (action.as_del a) = action.is_del a
  /\ (action.is_set a = false -> action.as_set a = Throw bad_variant_access)
  /\ (action.is_remove a = false ->
      action.as_remove a = Throw bad_variant_access)
  /\ (action.is_add a = false -> action.as_add a = Throw bad_variant_access)
  /\ (action.is_del a = false -> action.as_del a = Throw bad_variant_access)
  /\ holding [returned (action.as_set a); returned (action.as_remove a);
              returned (action.as_add a); returned (action.as_del a)] = 1%nat.
Proof.
  destruct a as [p [rhs| |v|v]]; cbn; repeat split; intros; discriminate.
Qed.

Lemma action_accessor_returns_iff_query_witness :
  action.is_add set_a_b = false
  /\ action.as_add set_a_b = Throw bad_variant_access.
Proof.
  split; [reflexivity|].
  destruct (action_accessor_returns_iff_query set_a_b)
    as (_ & _ & _ & _ & _ & _ & H & _).
  apply H. reflexivity.
Defined.


(** ** update_expression: empty() and actions() *)

(** [empty()] answers true exactly when [actions()] has no element. *)
Theorem empty_iff_no_action (e : update_expression.t) :
  (empty e = true <-> actions e = [])
  /\ (empty e = false <-> (0 < List.length (actions e))%nat)
  /\ empty default = true.
Proof.
  unfold empty, actions. destruct (_actions e) as [|a l]; cbn [List.length].
  - repeat split; try reflexivity; try discriminate. intros H. inversion H.
  - repeat split; try reflexivity; try discriminate. intros _. apply Nat.lt_0_succ.
Qed.

Lemma empty_iff_no_action_witness :
  empty default = true /\ actions default = [].
Proof.
  split; [reflexivity|].
  exact (proj1 (proj1 (empty_iff_no_action default)) eq_refl).
Defined.
